(** * EmailService: retry, fallback, idempotency and rate limiting

    A shallow embedding of the [EmailService] class of
    [src/emailService.js] and of its class-based revision
    [src/unnamed/part_000].  The two files share the control flow of
    [sendEmail]; they differ in the cache key separator ([-] against [:]),
    in the roster (two fixed [mockSend] entries against the constructor's
    argument), in the name of the index field ([currentProvider] against
    [currentProviderIndex]), in where a provider's name is read from, and
    in the wording of the log lines.

    Modelling conventions.
    - JavaScript numbers that the code only counts with are [nat]; the
      products [retryDelay * 2^(attempt - 1)] are exact at the magnitudes
      the code reaches.
    - The instance fields are a record; [sendEmail] threads the instance,
      the list of emitted events and a logical clock through its steps.
    - [updateStatus] and [log] write to the page; what is kept of them is
      the event that they were called and with what.  The page elements
      they look up exist.
    - Each [await] is a suspension point.  The host may run the interval
      callback registered by [startRateLimitWindow] during a suspension;
      which suspensions it does so in is given by an oracle.
    - The outcome of a provider's [send] (the sources draw [Math.random])
      is given by the provider as a function of the logical clock.
    - One [sendEmail] call runs to completion before the next one starts,
      as in the submit handler, which awaits it.
    - emailService.js reads [providers[currentProvider].name] in its
      [catch] block and after [switchProvider]; its roster is fixed and
      non-empty, so the entry is always there. *)

From Stdlib Require Import String Arith NArith Lia List.
From stdpp Require Import base decidable option list gmap strings pretty.
From Equations Require Import Equations.

Local Open Scope string_scope.
Local Open Scope list_scope.
Local Open Scope nat_scope.

(** ** JavaScript values the code manipulates *)

(** What a [catch (error)] clause can receive here: an [Error] thrown by a
    provider, or the [TypeError] raised by reading [.send] of [undefined]
    (its message is the engine's; nothing below depends on the text). *)
Inductive JsError :=
| Error (message : string)
| TypeError (message : string).

(** [`${error}`] *)
Definition errorText (e : JsError) : string :=
  match e with
  | Error m => "Error: " +:+ m
  | TypeError m => "TypeError: " +:+ m
  end.

(** The value of [currentProviderIndex]: a non-negative integer, or [NaN]
    (the result of [% 0]). *)
Inductive JsIndex :=
| Idx (i : nat)
| NaN.

(** A provider: its name ([name] in emailService.js, [constructor.name] in
    part_000) and its [send].  [send] takes the logical clock at the time
    of the call and the three message fields; [None] is a fulfilled
    promise, [Some e] a rejection with [e]. *)
Record Provider := {
  name : string;
  send : nat -> string -> string -> string -> option JsError
}.

(** [providers[index]]; [undefined] is [None]. *)
Definition providerAt (ps : list Provider) (ix : JsIndex) : option Provider :=
  match ix with
  | Idx i => ps !! i
  | NaN => None
  end.

(** [(index + 1) % length] *)
Definition nextIndex (ix : JsIndex) (len : nat) : JsIndex :=
  match ix, len with
  | Idx i, S _ => Idx ((i + 1) mod len)
  | _, _ => NaN
  end.

(** ** The instance *)

Record EmailService := {
  providers : list Provider;
  currentProviderIndex : JsIndex;
  maxRetries : nat;
  retryDelay : nat;
  rateLimit : nat;
  emailCache : gset string;
  sentEmails : nat;
  (** period of the interval registered by [startRateLimitWindow] *)
  rateWindowMs : option N
}.

(** What a [log] call reports; the two files word the line differently. *)
Inductive LogEntry :=
| LogDuplicate (email cacheKey : string)
| LogRateLimit (email : string)
| LogSent (email providerName : string) (attempt : nat)
| LogAttemptFailed (email : string) (attempt : nat) (error : JsError)
| LogSwitched (email : string).

(** Observable effects, in program order. *)
Inductive Event :=
| Status (message : string) (isError : bool) (duration : nat)
| Log (entry : LogEntry)
| Invoke (provider : nat) (email subject body : string)
| Sleep (ms : nat).

Record World := {
  svc : EmailService;
  clock : nat;
  trace : list Event
}.

(** ** Field updates *)

Definition withCache (c : gset string) (s : EmailService) : EmailService :=
  {| providers := providers s; currentProviderIndex := currentProviderIndex s;
     maxRetries := maxRetries s; retryDelay := retryDelay s;
     rateLimit := rateLimit s; emailCache := c; sentEmails := sentEmails s;
     rateWindowMs := rateWindowMs s |}.

Definition withSentEmails (n : nat) (s : EmailService) : EmailService :=
  {| providers := providers s; currentProviderIndex := currentProviderIndex s;
     maxRetries := maxRetries s; retryDelay := retryDelay s;
     rateLimit := rateLimit s; emailCache := emailCache s; sentEmails := n;
     rateWindowMs := rateWindowMs s |}.

Definition withIndex (ix : JsIndex) (s : EmailService) : EmailService :=
  {| providers := providers s; currentProviderIndex := ix;
     maxRetries := maxRetries s; retryDelay := retryDelay s;
     rateLimit := rateLimit s; emailCache := emailCache s;
     sentEmails := sentEmails s; rateWindowMs := rateWindowMs s |}.

Definition withWindow (ms : N) (s : EmailService) : EmailService :=
  {| providers := providers s; currentProviderIndex := currentProviderIndex s;
     maxRetries := maxRetries s; retryDelay := retryDelay s;
     rateLimit := rateLimit s; emailCache := emailCache s;
     sentEmails := sentEmails s; rateWindowMs := Some ms |}.

Definition onService (f : EmailService -> EmailService) (w : World) : World :=
  {| svc := f (svc w); clock := clock w; trace := trace w |}.

Definition emit (e : Event) (w : World) : World :=
  {| svc := svc w; clock := clock w; trace := trace w ++ [e] |}.

(** Statements in program order: [w |> f |> g] is [f] then [g]. *)
Notation "w |> f" := (f w) (at level 45, left associativity, only parsing).

(** [updateStatus(message, isError, resetDelay)]: the status line is shown
    (and hidden again after [resetDelay] ms). *)
Definition updateStatus (message : string) (isError : bool) (resetDelay : nat)
    (w : World) : World :=
  emit (Status message isError resetDelay) w.

(** [log(message)]: a line is appended to the status area. *)
Definition log (entry : LogEntry) (w : World) : World := emit (Log entry) w.

(** ** Construction and the rate window *)

(** The body of the interval callback: [this.sentEmails = 0]. *)
Definition resetWindow (s : EmailService) : EmailService := withSentEmails 0 s.

(** [startRateLimitWindow]: [setInterval(callback, 60000)]. *)
Definition startRateLimitWindow (s : EmailService) : EmailService :=
  withWindow 60000%N s.

(** The instance the constructor body builds (part_000; emailService.js
    does the same with its fixed two-entry roster). *)
Definition newService (ps : list Provider) : EmailService :=
  startRateLimitWindow
    {| providers := ps; currentProviderIndex := Idx 0;
       maxRetries := 3; retryDelay := 1000; rateLimit := 2;
       emailCache := ∅; sentEmails := 0; rateWindowMs := None |}.

(** [new EmailService(providers)] either yields the instance or throws.
    The constructor body has no [throw] and no call that can raise. *)
Definition construct (ps : list Provider) : JsError + EmailService :=
  inr (newService ps).

(** A fresh run: nothing emitted yet, clock at zero. *)
Definition boot (s : EmailService) : World :=
  {| svc := s; clock := 0; trace := [] |}.

(** ** Cache keys *)

(** part_000, [generateCacheKey]: [`${email}:${subject}:${body}`]. *)
Definition generateCacheKey (email subject body : string) : string :=
  email +:+ ":" +:+ subject +:+ ":" +:+ body.

(** emailService.js, line 33: [`${email}-${subject}-${body}`]. *)
Definition cacheKey (email subject body : string) : string :=
  email +:+ "-" +:+ subject +:+ "-" +:+ body.

(** ** Providers of the sources *)

Section SourceProviders.
(** [coin n]: the draw of [Math.random()] made at clock [n] is above 0.5. *)
Variable coin : nat -> bool.

(** The abstract class: [send] always throws. *)
Definition EmailProvider : Provider :=
  {| name := "EmailProvider";
     send := fun _ _ _ _ => Some (Error "Method 'send()' must be implemented.") |}.

Definition Provider1 : Provider :=
  {| name := "Provider1";
     send := fun n _ _ _ =>
               if coin n then Some (Error "Provider1 failure") else None |}.

Definition Provider2 : Provider :=
  {| name := "Provider2";
     send := fun n _ _ _ =>
               if coin n then Some (Error "Provider2 failure") else None |}.

(** emailService.js: both roster entries are [mockSend]. *)
Definition mockSend (n : nat) (email subject body : string) : option JsError :=
  if coin n then Some (Error "Mock provider failure") else None.

Definition mockRoster : list Provider :=
  [ {| name := "Provider1"; send := mockSend |};
    {| name := "Provider2"; send := mockSend |} ].
End SourceProviders.

(** ** The status lines of [sendEmail], as events

    The texts are the same in the two files. *)

Definition statusDuplicate : Event :=
  Status "Duplicate email detected. Not sending again." true 3000.

Definition statusRateLimit : Event :=
  Status "Rate limit exceeded. Try again later." true 3000.

Definition statusAttemptFailed (attempt : nat) (e : JsError) : Event :=
  Status ("Attempt " +:+ pretty attempt +:+ " failed: " +:+ errorText e
          +:+ ". Retrying...") true 3000.

Definition statusSwitched : Event :=
  Status "Switched provider. Retrying..." true 3000.

Definition statusSent (providerName : string) : Event :=
  Status ("Email sent successfully via " +:+ providerName) false 2000.

(** ** sendEmail *)

(** A value together with the equation that names it, so that a branch
    keeps the test it was taken under. *)
Definition inspect {A : Type} (a : A) : {b : A | a = b} := exist _ a eq_refl.

Section Dispatch.
(** The key function of the file at hand. *)
Variable cacheKeyOf : string -> string -> string -> string.
(** [timerDue n]: the interval callback runs during suspension [n]. *)
Variable timerDue : nat -> bool.

(** An [await]: the call is suspended, the host runs what is due. *)
Definition suspend (w : World) : World :=
  {| svc := if timerDue (clock w) then resetWindow (svc w) else svc w;
     clock := S (clock w);
     trace := trace w |}.

(** [await this.sleep(ms)] *)
Definition sleep (ms : nat) (w : World) : World := w |> emit (Sleep ms) |> suspend.

(** [this.retryDelay * Math.pow(2, attempt - 1)] *)
Definition backoff (s : EmailService) (attempt : nat) : nat :=
  retryDelay s * 2 ^ (attempt - 1).

(** [switchProvider] *)
Definition switchProvider (s : EmailService) : EmailService :=
  withIndex (nextIndex (currentProviderIndex s) (length (providers s))) s.

(** The [catch] block of the retry loop. *)
Definition onAttemptFailed (email : string) (attempt : nat) (e : JsError)
    (w : World) : World :=
  w |> updateStatus ("Attempt " +:+ pretty attempt +:+ " failed: "
                       +:+ errorText e +:+ ". Retrying...") true 3000
    |> log (LogAttemptFailed email attempt e)
    |> sleep (backoff (svc w) attempt).

(** The [for] loop, [remaining] iterations from [attempt] on.  The result
    is [true] when the loop body returned (a send succeeded) and [false]
    when the loop ran out.  Reading [.send] of [undefined] raises inside
    the [try], before any call or suspension.  A suspension changes
    neither the roster nor the index, so the provider named in the success
    status is the one that was called. *)
Fixpoint retryLoop (email subject body : string) (remaining attempt : nat)
    (w : World) : bool * World :=
  match remaining with
  | 0 => (false, w)
  | S remaining' =>
    match providerAt (providers (svc w)) (currentProviderIndex (svc w)) with
    | None =>
      retryLoop email subject body remaining' (S attempt)
        (onAttemptFailed email attempt
           (TypeError "Cannot read properties of undefined (reading 'send')") w)
    | Some p =>
      let ix := match currentProviderIndex (svc w) with Idx i => i | NaN => 0 end in
      let called := emit (Invoke ix email subject body) w in
      let result := send p (clock called) email subject body in
      let resumed := suspend called in
      match result with
      | None =>
        (true,
         resumed
           |> updateStatus ("Email sent successfully via " +:+ name p) false 2000
           |> log (LogSent email (name p) attempt))
      | Some e =>
        retryLoop email subject body remaining' (S attempt)
          (onAttemptFailed email attempt e resumed)
      end
    end
  end.

(** [this.emailCache.add(cacheKey)] *)
Definition recordKey (key : string) (w : World) : World :=
  onService (fun s => withCache ({[key]} ∪ emailCache s) s) w.

(** [this.sentEmails++] *)
Definition countSend (w : World) : World :=
  onService (fun s => withSentEmails (S (sentEmails s)) s) w.

(** The duplicate branch. *)
Definition reportDuplicate (email subject body : string) (w : World) : World :=
  w |> updateStatus "Duplicate email detected. Not sending again." true 3000
    |> log (LogDuplicate email (cacheKeyOf email subject body)).

(** The rate-limit branch. *)
Definition reportRateLimit (email : string) (w : World) : World :=
  w |> updateStatus "Rate limit exceeded. Try again later." true 3000
    |> log (LogRateLimit email).

(** The three statements after the loop, before the recursive call. *)
Definition fallBack (email : string) (w : World) : World :=
  w |> onService switchProvider
    |> updateStatus "Switched provider. Retrying..." true 3000
    |> log (LogSwitched email).

(** Calls of [sendEmail] still to be made for a key before the
    duplicate branch is certain. *)
Definition pending (key : string) (w : World) : nat :=
  if decide (key ∈ emailCache (svc w)) then 0 else 1.

#[local] Obligation Tactic := idtac.

(** [sendEmail(email, subject, body)].  The recursive call is the last
    statement of the source; it is well founded because the key is in
    the cache by then. *)
Equations? sendEmail (email subject body : string) (w : World) : World
  by wf (pending (cacheKeyOf email subject body) w) lt :=
sendEmail email subject body w
  with inspect (decide (cacheKeyOf email subject body ∈ emailCache (svc w))) := {
  | exist _ (left _) _ => reportDuplicate email subject body w
  | exist _ (right _) _ =>
    let recorded := recordKey (cacheKeyOf email subject body) w in
    if Nat.leb (rateLimit (svc recorded)) (sentEmails (svc recorded))
    then reportRateLimit email recorded
    else
      let counted := countSend recorded in
      let looped := retryLoop email subject body (maxRetries (svc counted)) 1 counted in
      if looped.1 then looped.2
      else sendEmail email subject body (fallBack email looped.2)
  }.
Proof.
  unfold pending. rewrite (decide_False (P := _ ∈ emailCache (svc w))) by assumption.
  rewrite decide_True; [lia|].
  assert (kept : ∀ remaining attempt w0,
             emailCache (svc (retryLoop email subject body remaining attempt w0).2)
             = emailCache (svc w0)).
  { induction remaining as [|k IH]; intros attempt w0; [reflexivity|].
    cbn [retryLoop]. destruct (providerAt _ _) as [p|].
    - cbv zeta. destruct (send p _ _ _ _).
      + rewrite IH. cbn. by destruct (timerDue _), (timerDue _).
      + cbn. by destruct (timerDue _).
    - rewrite IH. cbn. by destruct (timerDue _). }
  subst looped. cbn. rewrite kept. cbn.
  apply elem_of_union_l. by apply elem_of_singleton.
Qed.
End Dispatch.

(** ** Runs and observations *)

(** What can happen to an instance between two calls: a call of
    [sendEmail], or the interval callback. *)
Inductive Op :=
| Call (email subject body : string)
| Tick.

(** A message as the caller supplies it: recipient, subject, body. *)
Definition Message : Type := string * string * string.

Definition callOf (m : Message) : Op := Call m.1.1 m.1.2 m.2.

Section Runs.
Variable cacheKeyOf : string -> string -> string -> string.
Variable timerDue : nat -> bool.

Definition step (w : World) (op : Op) : World :=
  match op with
  | Call email subject body => sendEmail cacheKeyOf timerDue email subject body w
  | Tick => onService resetWindow w
  end.

Definition run (ops : list Op) (w : World) : World := fold_left step ops w.

Definition keyOf (m : Message) : string := cacheKeyOf m.1.1 m.1.2 m.2.

(** The timer does not run: the calls fall within one window. *)
Definition quiet : Prop := ∀ c, timerDue c = false.
End Runs.

(** The events a step appended, given the world before and after. *)
Definition emitted (w w' : World) : list Event :=
  drop (length (trace w)) (trace w').

Definition isInvoke (e : Event) : bool :=
  match e with Invoke _ _ _ _ => true | _ => false end.

Definition invokes (email subject body : string) (e : Event) : bool :=
  match e with
  | Invoke _ email' subject' body' =>
    bool_decide (email' = email ∧ subject' = subject ∧ body' = body)
  | _ => false
  end.

(** Number of provider invocations made for a message. *)
Definition invocationsFor (email subject body : string) (t : list Event) : nat :=
  length (List.filter (invokes email subject body) t).

Definition sentFor (m : Message) (t : list Event) : nat :=
  invocationsFor m.1.1 m.1.2 m.2 t.

Definition sleeps (t : list Event) : list nat :=
  omap (fun e => match e with Sleep ms => Some ms | _ => None end) t.

(** Attempt numbers of the failed attempts, as logged by the [catch] block. *)
Definition failures (t : list Event) : list nat :=
  omap (fun e => match e with
                 | Log (LogAttemptFailed _ k _) => Some k
                 | _ => None
                 end) t.

Definition statuses (t : list Event) : list Event :=
  List.filter (fun e => match e with Status _ _ _ => true | _ => false end) t.

(** The roster can serve a send: the index names an entry. *)
Definition ready (s : EmailService) : Prop :=
  is_Some (providerAt (providers s) (currentProviderIndex s)).

(** The fields no call writes. *)
Definition limits (s : EmailService) :=
  (providers s, maxRetries s, retryDelay s, rateLimit s, rateWindowMs s).

(** All fields but [sentEmails]. *)
Definition config (s : EmailService) : EmailService := withSentEmails 0 s.

(** ** Instances used as concrete inputs *)

(** The timer never runs during the calls below. *)
Definition noTimer : nat -> bool := fun _ => false.

(** [Math.random()] never exceeds 0.5: [Provider1] and [Provider2] always
    deliver. *)
Definition alwaysLow : nat -> bool := fun _ => false.

(** [Math.random()] exceeds 0.5 on the draws made before clock 5, which
    are those of the three attempts of one retry cycle, and not after. *)
Definition highThenLow : nat -> bool := fun n => n <? 5.

(** part_000, as the submit handler builds it:
    [new EmailService([new Provider1(), new Provider2()])], with the draws
    [highThenLow]. *)
Definition failingThenDelivering : World :=
  boot (newService [Provider1 highThenLow; Provider2 highThenLow]).

(** emailService.js: [new EmailService()], with the draws [highThenLow]. *)
Definition mockService : World := boot (newService (mockRoster highThenLow)).

(** part_000: [new EmailService([new Provider2()])], providers delivering. *)
Definition deliveringService : World := boot (newService [Provider2 alwaysLow]).

(** part_000 instance whose only provider always throws. *)
Definition failingService : World := boot (newService [EmailProvider]).

(** part_000 instance on which ("a@x.com", "s", "b") has been seen. *)
Definition seenService : World :=
  boot (withCache {[generateCacheKey "a@x.com" "s" "b"]}
          (newService [Provider2 alwaysLow])).

(** Three messages with pairwise different fields; the first two have the
    same part_000 key. *)
Definition collidingBatch : list Message :=
  [("a:b", "c", "d"); ("a", "b:c", "d"); ("x", "y", "z")].

(** * Facts *)

Lemma emitted_app w w' evs : trace w' = trace w ++ evs → emitted w w' = evs.
Proof. unfold emitted. intros ->. by rewrite drop_app_length. Qed.

Lemma invocationsFor_app email subject body t u :
  invocationsFor email subject body (t ++ u)
  = invocationsFor email subject body t + invocationsFor email subject body u.
Proof. unfold invocationsFor. by rewrite List.filter_app, length_app. Qed.

Lemma sleeps_app t u : sleeps (t ++ u) = sleeps t ++ sleeps u.
Proof. apply omap_app. Qed.

Lemma failures_app t u : failures (t ++ u) = failures t ++ failures u.
Proof. apply omap_app. Qed.

(** The key just added to a cache is in it. *)
Ltac key_recorded := apply elem_of_union_l; by apply elem_of_singleton.

Section DispatchFacts.
Variable cacheKeyOf : string -> string -> string -> string.
Variable timerDue : nat -> bool.

Abbreviation sendEmail := (sendEmail cacheKeyOf timerDue).
Abbreviation retryLoop := (retryLoop timerDue).
Abbreviation reportDuplicate := (reportDuplicate cacheKeyOf).
Abbreviation suspend := (suspend timerDue).
Abbreviation onAttemptFailed := (onAttemptFailed timerDue).
Abbreviation run := (run cacheKeyOf timerDue).
Abbreviation step := (step cacheKeyOf timerDue).
Abbreviation keyOf := (keyOf cacheKeyOf).
Abbreviation quiet := (quiet timerDue).

(** *** Suspension points *)

Lemma suspend_config w : config (svc (suspend w)) = config (svc w).
Proof. cbn. by destruct (timerDue _). Qed.

Lemma onAttemptFailed_config email k e w :
  config (svc (onAttemptFailed email k e w)) = config (svc w).
Proof. unfold onAttemptFailed, sleep. by rewrite suspend_config. Qed.

Lemma onAttemptFailed_trace email k e w :
  trace (onAttemptFailed email k e w)
  = trace w ++ [statusAttemptFailed k e; Log (LogAttemptFailed email k e);
                Sleep (backoff (svc w) k)].
Proof. cbn. by rewrite <- !app_assoc. Qed.

(** *** The retry loop *)

(** One iteration of the loop, case by case. *)
Lemma retryLoop_S email subject body remaining attempt w :
  retryLoop email subject body (S remaining) attempt w =
  match providerAt (providers (svc w)) (currentProviderIndex (svc w)) with
  | None =>
    retryLoop email subject body remaining (S attempt)
      (onAttemptFailed email attempt
         (TypeError "Cannot read properties of undefined (reading 'send')") w)
  | Some p =>
    let ix := match currentProviderIndex (svc w) with Idx i => i | NaN => 0 end in
    let called := emit (Invoke ix email subject body) w in
    match send p (clock w) email subject body with
    | None =>
      (true, emit (Log (LogSent email (name p) attempt))
               (emit (statusSent (name p)) (suspend called)))
    | Some e =>
      retryLoop email subject body remaining (S attempt)
        (onAttemptFailed email attempt e (suspend called))
    end
  end.
Proof. reflexivity. Qed.

Lemma retryLoop_config email subject body remaining attempt w :
  config (svc (retryLoop email subject body remaining attempt w).2)
  = config (svc w).
Proof.
  revert attempt w.
  induction remaining as [|n IH]; intros attempt w; [reflexivity|].
  rewrite retryLoop_S. destruct (providerAt _ _) as [p|].
  - cbv zeta. destruct (send p _ _ _ _).
    + by rewrite IH, onAttemptFailed_config, suspend_config.
    + cbn. by destruct (timerDue _).
  - by rewrite IH, onAttemptFailed_config.
Qed.

Lemma retryLoop_clock email subject body remaining attempt w :
  clock w ≤ clock (retryLoop email subject body remaining attempt w).2.
Proof.
  revert attempt w.
  induction remaining as [|n IH]; intros attempt w; [reflexivity|].
  rewrite retryLoop_S. destruct (providerAt _ _) as [p|].
  - cbv zeta. destruct (send p _ _ _ _).
    + etrans; [|apply IH]. cbn. lia.
    + cbn. lia.
  - etrans; [|apply IH]. cbn. lia.
Qed.

(** The counter is left alone by the loop; only a timer callback run
    during one of its suspensions touches it. *)
Lemma retryLoop_sentEmails email subject body remaining attempt w :
  let w' := (retryLoop email subject body remaining attempt w).2 in
  sentEmails (svc w') = sentEmails (svc w)
  ∨ sentEmails (svc w') = 0
    ∧ ∃ c, clock w ≤ c < clock w' ∧ timerDue c = true.
Proof.
  revert attempt w.
  induction remaining as [|n IH]; intros attempt w; [by left|].
  cbv zeta. rewrite retryLoop_S. destruct (providerAt _ _) as [p|].
  - cbv zeta. destruct (send p _ _ _ _) as [e|].
    + set (w1 := onAttemptFailed _ _ _ _).
      pose proof (retryLoop_clock email subject body n (S attempt) w1) as Hc.
      destruct (IH (S attempt) w1) as [Heq|[H0 (c & Hc' & Hd)]].
      * rewrite Heq. subst w1. cbn in *.
        destruct (timerDue (S (clock w))) eqn:E1.
        { right. split; [done|]. exists (S (clock w)). split; [lia|done]. }
        destruct (timerDue (clock w)) eqn:E2.
        { right. split; [done|]. exists (clock w). split; [lia|done]. }
        by left.
      * right. split; [done|]. exists c. split; [|done].
        subst w1. cbn in *. lia.
    + cbn. destruct (timerDue (clock w)) eqn:E.
      * right. split; [done|]. exists (clock w). split; [lia|done].
      * by left.
  - set (w1 := onAttemptFailed _ _ _ _).
    pose proof (retryLoop_clock email subject body n (S attempt) w1) as Hc.
    destruct (IH (S attempt) w1) as [Heq|[H0 (c & Hc' & Hd)]].
    * rewrite Heq. subst w1. cbn in *.
      destruct (timerDue (clock w)) eqn:E.
      { right. split; [done|]. exists (clock w). split; [lia|done]. }
      by left.
    * right. split; [done|]. exists c. split; [|done].
      subst w1. cbn in *. lia.
Qed.

Lemma backoff_config s s' : config s = config s' → backoff s = backoff s'.
Proof.
  unfold backoff. intros H.
  by rewrite (f_equal retryDelay H : retryDelay s = retryDelay s').
Qed.

Lemma ready_config s s' : config s = config s' → ready s → ready s'.
Proof.
  unfold ready. intros H.
  rewrite (f_equal providers H : providers s = providers s').
  by rewrite (f_equal currentProviderIndex H
              : currentProviderIndex s = currentProviderIndex s').
Qed.

(** Failed attempts are numbered consecutively and each is followed by
    its own back-off sleep. *)
Lemma retryLoop_events email subject body remaining attempt w :
  let r := retryLoop email subject body remaining attempt w in
  ∃ evs f,
    trace r.2 = trace w ++ evs
    ∧ f ≤ remaining
    ∧ (r.1 = false → f = remaining)
    ∧ failures evs = seq attempt f
    ∧ sleeps evs = map (backoff (svc w)) (seq attempt f).
Proof.
  revert attempt w.
  induction remaining as [|n IH]; intros attempt w; cbv zeta.
  { exists [], 0. by rewrite app_nil_r. }
  rewrite retryLoop_S. destruct (providerAt _ _) as [p|].
  - cbv zeta. destruct (send p _ _ _ _) as [e|].
    + set (w1 := onAttemptFailed _ _ _ _).
      destruct (IH (S attempt) w1) as (evs & f & Ht & Hf & Hall & Hfail & Hsl).
      exists (Invoke (match currentProviderIndex (svc w) with Idx i => i | NaN => 0 end)
                email subject body
              :: statusAttemptFailed attempt e
              :: Log (LogAttemptFailed email attempt e)
              :: Sleep (backoff (svc w) attempt) :: evs), (S f).
      split; [|split; [lia|split; [intros H; f_equal; auto|split]]].
      * rewrite Ht. subst w1. rewrite onAttemptFailed_trace. cbn.
        rewrite <- !app_assoc. cbn. do 6 f_equal.
        apply (f_equal (fun g => g attempt)), backoff_config.
        by destruct (timerDue _).
      * cbn [seq]. by rewrite <- Hfail.
      * rewrite (backoff_config (svc w1) (svc w)) in Hsl;
          [cbn [seq map]; by rewrite <- Hsl|].
        subst w1. rewrite onAttemptFailed_config. cbn. by destruct (timerDue _).
    + exists [Invoke (match currentProviderIndex (svc w) with Idx i => i | NaN => 0 end)
                email subject body;
              statusSent (name p); Log (LogSent email (name p) attempt)], 0.
      split; [|split; [lia|split; [done|split; reflexivity]]].
      cbn. by rewrite <- !app_assoc.
  - set (w1 := onAttemptFailed _ _ _ _).
    destruct (IH (S attempt) w1) as (evs & f & Ht & Hf & Hall & Hfail & Hsl).
    eexists (_ :: _ :: _ :: evs), (S f).
    split; [|split; [lia|split; [intros H; f_equal; auto|split]]].
    * rewrite Ht. subst w1. rewrite onAttemptFailed_trace.
      rewrite <- !app_assoc. reflexivity.
    * cbn [seq]. by rewrite <- Hfail.
    * rewrite (backoff_config (svc w1) (svc w)) in Hsl;
        [cbn [seq map]; by rewrite <- Hsl|].
      subst w1. by rewrite onAttemptFailed_config.
Qed.

(** The loop invokes providers for its own message only, at most once
    per iteration, and at least once when the roster can serve. *)
Lemma retryLoop_invocations email subject body remaining attempt w :
  let r := retryLoop email subject body remaining attempt w in
  ∃ evs,
    trace r.2 = trace w ++ evs
    ∧ invocationsFor email subject body evs ≤ remaining
    ∧ (∀ e' s' b', (e' = email ∧ s' = subject ∧ b' = body)
                   ∨ invocationsFor e' s' b' evs = 0)
    ∧ (ready (svc w) → 0 < remaining → 0 < invocationsFor email subject body evs)
    ∧ (¬ ready (svc w) → List.filter isInvoke evs = []).
Proof.
  revert attempt w.
  induction remaining as [|n IH]; intros attempt w; cbv zeta.
  { exists []. rewrite app_nil_r. repeat split; try done; try lia. by right. }
  rewrite retryLoop_S. unfold ready.
  destruct (providerAt _ _) as [p|] eqn:Hp.
  - cbv zeta. destruct (send p _ _ _ _) as [e|].
    + set (w1 := onAttemptFailed _ _ _ _).
      destruct (IH (S attempt) w1) as (evs & Ht & Hle & Hown & _ & _).
      eexists (_ :: _ :: _ :: _ :: evs).
      split; [|split; [|split; [|split]]].
      * rewrite Ht. subst w1. rewrite onAttemptFailed_trace. cbn.
        rewrite <- !app_assoc. reflexivity.
      * unfold invocationsFor in *. cbn.
        rewrite bool_decide_true by done. cbn. lia.
      * intros e' s' b'. destruct (Hown e' s' b') as [?|H0]; [by left|].
        unfold invocationsFor in *. cbn.
        case_bool_decide as Hd; [left; by destruct Hd as (-> & -> & ->)|by right].
      * intros _ _. unfold invocationsFor. cbn.
        rewrite bool_decide_true by done. cbn. lia.
      * intros H. destruct H. eauto.
    + eexists [_; _; _].
      split; [|split; [|split; [|split]]].
      * cbn. rewrite <- !app_assoc. reflexivity.
      * unfold invocationsFor. cbn. rewrite bool_decide_true by done. cbn. lia.
      * intros e' s' b'. unfold invocationsFor. cbn.
        case_bool_decide as Hd; [left; by destruct Hd as (-> & -> & ->)|by right].
      * intros _ _. unfold invocationsFor. cbn.
        rewrite bool_decide_true by done. cbn. lia.
      * intros H. destruct H. eauto.
  - set (w1 := onAttemptFailed _ _ _ _).
    destruct (IH (S attempt) w1) as (evs & Ht & Hle & Hown & _ & Hnone).
    eexists (_ :: _ :: _ :: evs).
    split; [|split; [|split; [|split]]].
    * rewrite Ht. subst w1. rewrite onAttemptFailed_trace.
      rewrite <- !app_assoc. reflexivity.
    * unfold invocationsFor in *. cbn. lia.
    * intros e' s' b'. destruct (Hown e' s' b') as [?|H0]; [by left|].
      unfold invocationsFor in *. cbn. by right.
    * intros [? H]. discriminate H.
    * intros _. cbn. apply Hnone. intros Hr.
      eapply (ready_config _ (svc w)) in Hr.
      -- destruct Hr as [? Hr]. unfold ready in Hr. congruence.
      -- subst w1. by rewrite onAttemptFailed_config.
Qed.

(** *** sendEmail, without the recursion *)

Lemma sendEmail_cached email subject body w :
  cacheKeyOf email subject body ∈ emailCache (svc w) →
  sendEmail email subject body w = reportDuplicate email subject body w.
Proof.
  intros Hin. simp sendEmail.
  generalize (inspect (decide (cacheKeyOf email subject body ∈ emailCache (svc w)))).
  intros [[?|Hn] ?]; [|contradiction].
  by simp sendEmail.
Qed.

Lemma retryLoop_emailCache email subject body remaining attempt w :
  emailCache (svc (retryLoop email subject body remaining attempt w).2)
  = emailCache (svc w).
Proof.
  exact (f_equal emailCache
           (retryLoop_config email subject body remaining attempt w)).
Qed.

(** The recursive call always lands in the duplicate branch, so the
    whole of [sendEmail] is the following. *)
Lemma sendEmail_flat email subject body w :
  sendEmail email subject body w =
  if decide (cacheKeyOf email subject body ∈ emailCache (svc w))
  then reportDuplicate email subject body w
  else
    if rateLimit (svc w) <=? sentEmails (svc w)
    then reportRateLimit email (recordKey (cacheKeyOf email subject body) w)
    else
      let looped :=
        retryLoop email subject body (maxRetries (svc w)) 1
          (countSend (recordKey (cacheKeyOf email subject body) w)) in
      if looped.1 then looped.2
      else reportDuplicate email subject body (fallBack email looped.2).
Proof.
  simp sendEmail.
  generalize (inspect (decide (cacheKeyOf email subject body ∈ emailCache (svc w)))).
  intros [[Hin|Hn] Heq]; simp sendEmail;
    [by rewrite decide_True | rewrite decide_False by done].
  cbv zeta. change (rateLimit (svc (recordKey _ w))) with (rateLimit (svc w)).
  change (sentEmails (svc (recordKey _ w))) with (sentEmails (svc w)).
  destruct (_ <=? _); [done|].
  change (maxRetries (svc (countSend _))) with (maxRetries (svc w)).
  destruct (retryLoop _ _ _ _ _ _).1 eqn:E; [done|].
  apply sendEmail_cached. cbn. rewrite retryLoop_emailCache. cbn.
  key_recorded.
Qed.

(** *** What a call changes *)

Lemma limits_config s s' : config s = config s' → limits s = limits s'.
Proof.
  intros H. unfold limits.
  rewrite (f_equal providers H : providers s = providers s').
  rewrite (f_equal maxRetries H : maxRetries s = maxRetries s').
  rewrite (f_equal retryDelay H : retryDelay s = retryDelay s').
  rewrite (f_equal rateLimit H : rateLimit s = rateLimit s').
  by rewrite (f_equal rateWindowMs H : rateWindowMs s = rateWindowMs s').
Qed.

Lemma sendEmail_limits email subject body w :
  limits (svc (sendEmail email subject body w)) = limits (svc w).
Proof.
  rewrite sendEmail_flat.
  destruct (decide _); [done|]. destruct (_ <=? _); [done|].
  cbv zeta. destruct (retryLoop _ _ _ _ _ _).1.
  - by rewrite (limits_config _ _ (retryLoop_config _ _ _ _ _ _)).
  - change (limits (svc (reportDuplicate _ _ _ (fallBack _ ?w0))))
      with (limits (svc w0)).
    by rewrite (limits_config _ _ (retryLoop_config _ _ _ _ _ _)).
Qed.

(** Every call leaves its key in the cache, and nothing else new. *)
Lemma sendEmail_emailCache email subject body w :
  emailCache (svc (sendEmail email subject body w))
  = {[cacheKeyOf email subject body]} ∪ emailCache (svc w).
Proof.
  rewrite sendEmail_flat.
  destruct (decide _) as [Hin|Hn].
  - cbn. symmetry. apply subseteq_union_1_L. by apply singleton_subseteq_l.
  - destruct (_ <=? _); [done|].
    cbv zeta. destruct (retryLoop _ _ _ _ _ _).1.
    + by rewrite retryLoop_emailCache.
    + change (emailCache (svc (reportDuplicate _ _ _ (fallBack _ ?w0))))
        with (emailCache (svc w0)).
      by rewrite retryLoop_emailCache.
Qed.

(** The counter after a call: untouched, incremented from below the
    limit, or zeroed by the timer during one of the call's suspensions. *)
Lemma sendEmail_sentEmails email subject body w :
  let w' := sendEmail email subject body w in
  sentEmails (svc w') = sentEmails (svc w)
  ∨ sentEmails (svc w) < rateLimit (svc w)
    ∧ sentEmails (svc w') = S (sentEmails (svc w))
  ∨ sentEmails (svc w') = 0
    ∧ ∃ c, clock w ≤ c < clock w' ∧ timerDue c = true.
Proof.
  cbv zeta. rewrite sendEmail_flat.
  destruct (decide _); [by left|].
  destruct (_ <=? _) eqn:Hlim; [by left|].
  apply Nat.leb_gt in Hlim. cbv zeta.
  pose proof (retryLoop_sentEmails email subject body (maxRetries (svc w)) 1
                (countSend (recordKey (cacheKeyOf email subject body) w))) as H.
  cbv zeta in H.
  destruct (retryLoop _ _ _ _ _ _) as [ok w1]. cbn [fst snd] in *.
  replace (sentEmails (svc (if ok then w1
                            else reportDuplicate email subject body (fallBack email w1))))
    with (sentEmails (svc w1)) by (by destruct ok).
  replace (clock (if ok then w1
                  else reportDuplicate email subject body (fallBack email w1)))
    with (clock w1) by (by destruct ok).
  destruct H as [->|[-> Hc]]; [right; left; by split|right; right; by split].
Qed.

Lemma nextIndex_ready ps i :
  is_Some (providerAt ps (Idx i)) →
  is_Some (providerAt ps (nextIndex (Idx i) (length ps))).
Proof.
  cbn. intros H%lookup_lt_is_Some. destruct ps as [|p ps]; [cbn in H; lia|].
  cbn [length nextIndex providerAt]. apply lookup_lt_is_Some.
  apply Nat.mod_upper_bound. cbn. lia.
Qed.

Lemma switchProvider_ready s : ready s → ready (switchProvider s).
Proof.
  unfold ready, switchProvider. cbn.
  destruct (currentProviderIndex s) as [i|]; [|by intros [? ?]].
  apply nextIndex_ready.
Qed.

Lemma sendEmail_ready email subject body w :
  ready (svc w) → ready (svc (sendEmail email subject body w)).
Proof.
  intros Hr. rewrite sendEmail_flat.
  destruct (decide _); [done|]. destruct (_ <=? _); [done|].
  cbv zeta.
  assert (ready (svc (retryLoop email subject body (maxRetries (svc w)) 1
                        (countSend (recordKey (cacheKeyOf email subject body) w))).2))
    as Hr'.
  { eapply ready_config; [symmetry; apply retryLoop_config|exact Hr]. }
  destruct (retryLoop _ _ _ _ _ _).1; [done|].
  exact (switchProvider_ready _ Hr').
Qed.

(** What a call emits, branch by branch, and how many provider
    invocations that contains. *)
Lemma sendEmail_emits email subject body w :
  let key := cacheKeyOf email subject body in
  ∃ evs,
    trace (sendEmail email subject body w) = trace w ++ evs
    ∧ invocationsFor email subject body evs ≤ maxRetries (svc w)
    ∧ (∀ e' s' b', (e' = email ∧ s' = subject ∧ b' = body)
                   ∨ invocationsFor e' s' b' evs = 0)
    ∧ (key ∈ emailCache (svc w) →
       evs = [statusDuplicate; Log (LogDuplicate email key)])
    ∧ (key ∉ emailCache (svc w) → rateLimit (svc w) ≤ sentEmails (svc w) →
       evs = [statusRateLimit; Log (LogRateLimit email)])
    ∧ (key ∉ emailCache (svc w) → sentEmails (svc w) < rateLimit (svc w) →
       ready (svc w) → 0 < maxRetries (svc w) →
       0 < invocationsFor email subject body evs).
Proof.
  cbv zeta. rewrite sendEmail_flat.
  destruct (decide _) as [Hin|Hn].
  { exists [statusDuplicate; Log (LogDuplicate email (cacheKeyOf email subject body))].
    split; [cbn; by rewrite <- app_assoc|].
    split; [cbn; lia|]. split; [by right|].
    split; [done|]. split; intros; contradiction. }
  destruct (_ <=? _) eqn:Hlim.
  { apply Nat.leb_le in Hlim.
    exists [statusRateLimit; Log (LogRateLimit email)].
    split; [cbn; by rewrite <- app_assoc|].
    split; [cbn; lia|]. split; [by right|].
    split; [intros; contradiction|]. split; [done|]. intros; lia. }
  apply Nat.leb_gt in Hlim. cbv zeta.
  destruct (retryLoop_invocations email subject body (maxRetries (svc w)) 1
              (countSend (recordKey (cacheKeyOf email subject body) w)))
    as (evs & Ht & Hle & Hown & Hpos & _).
  destruct (retryLoop _ _ _ _ _ _) as [ok w1]. cbn [fst snd] in *.
  destruct ok.
  - exists evs. split; [done|]. split; [done|]. split; [done|].
    split; [intros; contradiction|]. split; [intros; lia|].
    intros _ _ Hr Hm. by apply Hpos.
  - exists (evs ++ [statusSwitched; Log (LogSwitched email); statusDuplicate;
                    Log (LogDuplicate email (cacheKeyOf email subject body))]).
    split; [cbn; rewrite Ht; cbn; by rewrite <- !app_assoc|].
    split; [rewrite invocationsFor_app; cbn; lia|].
    split.
    { intros e' s' b'. destruct (Hown e' s' b') as [?|H0]; [by left|right].
      rewrite invocationsFor_app, H0. reflexivity. }
    split; [intros; contradiction|]. split; [intros; lia|].
    intros _ _ Hr Hm. rewrite invocationsFor_app.
    specialize (Hpos Hr Hm). lia.
Qed.

(** *** Runs *)

Lemma step_limits w op : limits (svc (step w op)) = limits (svc w).
Proof. destruct op; [apply sendEmail_limits|reflexivity]. Qed.

Lemma run_cons op ops w : run (op :: ops) w = run ops (step w op).
Proof. reflexivity. Qed.

Lemma run_limits ops w : limits (svc (run ops w)) = limits (svc w).
Proof.
  revert w. induction ops as [|op ops IH]; intros w; [reflexivity|].
  by rewrite run_cons, IH, step_limits.
Qed.

Lemma step_emailCache w op : emailCache (svc w) ⊆ emailCache (svc (step w op)).
Proof.
  destruct op; [|reflexivity]. cbn. rewrite sendEmail_emailCache.
  apply union_subseteq_r.
Qed.

(** Entries are never removed from the cache. *)
Lemma run_emailCache ops w : emailCache (svc w) ⊆ emailCache (svc (run ops w)).
Proof.
  revert w. induction ops as [|op ops IH]; intros w; [reflexivity|].
  rewrite run_cons. etrans; [apply step_emailCache|apply IH].
Qed.

Lemma step_sentEmails_le w op :
  sentEmails (svc w) ≤ rateLimit (svc w) →
  sentEmails (svc (step w op)) ≤ rateLimit (svc (step w op)).
Proof.
  intros H.
  assert (rateLimit (svc (step w op)) = rateLimit (svc w)) as ->.
  { pose proof (step_limits w op) as E. unfold limits in E. congruence. }
  destruct op as [e s b|]; [|cbn; lia].
  destruct (sendEmail_sentEmails e s b w) as [E|[[? E]|[E _]]];
    cbn [step]; rewrite E; lia.
Qed.

Lemma run_sentEmails_le ops w :
  sentEmails (svc w) ≤ rateLimit (svc w) →
  sentEmails (svc (run ops w)) ≤ rateLimit (svc (run ops w)).
Proof.
  revert w. induction ops as [|op ops IH]; intros w H; [done|].
  rewrite run_cons. apply IH. by apply step_sentEmails_le.
Qed.

(** Once a key is cached, no later step invokes a provider for a message
    with that key. *)
Lemma step_cached_invocations email subject body w op :
  cacheKeyOf email subject body ∈ emailCache (svc w) →
  invocationsFor email subject body (trace (step w op))
  = invocationsFor email subject body (trace w).
Proof.
  intros Hin. destruct op as [e s b|]; [|reflexivity]. cbn [step].
  destruct (sendEmail_emits e s b w) as (evs & Ht & _ & Hown & Hdup & _).
  rewrite Ht, invocationsFor_app.
  destruct (Hown email subject body) as [(-> & -> & ->)|H0]; [|lia].
  rewrite (Hdup Hin). cbn. lia.
Qed.

Lemma run_cached_invocations email subject body ops w :
  cacheKeyOf email subject body ∈ emailCache (svc w) →
  invocationsFor email subject body (trace (run ops w))
  = invocationsFor email subject body (trace w).
Proof.
  revert w. induction ops as [|op ops IH]; intros w Hin; [reflexivity|].
  rewrite run_cons, IH, step_cached_invocations; [done|done|].
  by apply step_emailCache.
Qed.

(** *** Idempotency *)

Lemma sendEmail_cached_emits email subject body w :
  cacheKeyOf email subject body ∈ emailCache (svc w) →
  let w' := sendEmail email subject body w in
  emitted w w' = [statusDuplicate;
                  Log (LogDuplicate email (cacheKeyOf email subject body))]
  ∧ trace w' = trace w ++ emitted w w'
  ∧ svc w' = svc w ∧ clock w' = clock w.
Proof.
  intros Hin. cbv zeta. rewrite (sendEmail_cached _ _ _ _ Hin).
  assert (trace (reportDuplicate email subject body w)
          = trace w ++ [statusDuplicate;
                        Log (LogDuplicate email (cacheKeyOf email subject body))])
    as Ht by (cbn; by rewrite <- app_assoc).
  rewrite (emitted_app _ _ _ Ht). by rewrite Ht.
Qed.

(** C3.  A call whose fingerprint is already cached emits the duplicate
    status with its log line and nothing else: no provider is invoked and
    the instance (cache, [sentEmails], active index, every other field)
    and the clock are as before.  Hence, of two calls in sequence for one
    message, the second only reports the duplicate, and the provider
    invocations on record are those of the first call. *)
Theorem duplicate_call_is_noop email subject body w :
  (cacheKeyOf email subject body ∈ emailCache (svc w) →
   let w' := sendEmail email subject body w in
   emitted w w' = [statusDuplicate;
                   Log (LogDuplicate email (cacheKeyOf email subject body))]
   ∧ List.filter isInvoke (emitted w w') = []
   ∧ svc w' = svc w
   ∧ clock w' = clock w)
  ∧ (let w1 := sendEmail email subject body w in
     let w2 := sendEmail email subject body w1 in
     emitted w1 w2 = [statusDuplicate;
                      Log (LogDuplicate email (cacheKeyOf email subject body))]
     ∧ List.filter isInvoke (trace w2) = List.filter isInvoke (trace w1)
     ∧ svc w2 = svc w1
     ∧ clock w2 = clock w1).
Proof.
  pose proof (sendEmail_cached_emits email subject body) as dup.
  split.
  - intros Hin. destruct (dup w Hin) as (He & _ & Hs & Hc).
    cbv zeta. by rewrite He.
  - cbv zeta.
    assert (cacheKeyOf email subject body
            ∈ emailCache (svc (sendEmail email subject body w))) as Hin.
    { rewrite sendEmail_emailCache. key_recorded. }
    destruct (dup _ Hin) as (He & Ht & Hs & Hc).
    split; [done|]. split; [|done].
    rewrite Ht, He, List.filter_app. cbn. by rewrite app_nil_r.
Qed.

(** *** Recording before dispatch *)

(** C4.  For a message not yet cached the fingerprint is recorded first:
    the rate-limit branch and the retry loop both run on the instance that
    already holds the key.  So the key is in the cache after the call
    whatever its outcome, it stays there through any later calls and timer
    ticks, and a later call with the same fields takes the duplicate
    branch and invokes no provider. *)
Theorem fingerprint_recorded_before_dispatch email subject body w :
  cacheKeyOf email subject body ∉ emailCache (svc w) →
  let key := cacheKeyOf email subject body in
  let w' := sendEmail email subject body w in
  (rateLimit (svc w) ≤ sentEmails (svc w) →
   w' = reportRateLimit email (recordKey key w))
  ∧ (sentEmails (svc w) < rateLimit (svc w) →
     let looped := retryLoop email subject body (maxRetries (svc w)) 1
                     (countSend (recordKey key w)) in
     w' = if looped.1 then looped.2
          else reportDuplicate email subject body (fallBack email looped.2))
  ∧ key ∈ emailCache (svc (recordKey key w))
  ∧ key ∈ emailCache (svc w')
  ∧ ∀ ops,
      let later := run ops w' in
      key ∈ emailCache (svc later)
      ∧ sendEmail email subject body later = reportDuplicate email subject body later
      ∧ invocationsFor email subject body (trace (sendEmail email subject body later))
        = invocationsFor email subject body (trace w').
Proof.
  intros Hn. cbv zeta.
  assert (cacheKeyOf email subject body
          ∈ emailCache (svc (sendEmail email subject body w))) as Hin.
  { rewrite sendEmail_emailCache. key_recorded. }
  split; [|split; [|split; [|split; [done|]]]].
  - intros Hlim. rewrite sendEmail_flat, decide_False by done.
    by rewrite (proj2 (Nat.leb_le _ _) Hlim).
  - intros Hlim. rewrite sendEmail_flat, decide_False by done.
    by rewrite (proj2 (Nat.leb_gt _ _) Hlim).
  - cbn. key_recorded.
  - intros ops.
    assert (cacheKeyOf email subject body
            ∈ emailCache (svc (run ops (sendEmail email subject body w)))) as Hlater
      by (by apply run_emailCache).
    split; [done|]. split; [by apply sendEmail_cached|].
    pose proof (step_cached_invocations email subject body _
                  (Call email subject body) Hlater) as Hstep.
    cbn [step] in Hstep. rewrite Hstep.
    by apply run_cached_invocations.
Qed.

(** *** Success, and fallback *)

(** A loop that returns has called the active provider last and names it
    in the success status. *)
Lemma retryLoop_success email subject body remaining attempt w :
  let r := retryLoop email subject body remaining attempt w in
  r.1 = true →
  ∃ p k pre,
    providerAt (providers (svc w)) (currentProviderIndex (svc w)) = Some p
    ∧ attempt ≤ k < attempt + remaining
    ∧ trace r.2 = trace w ++ pre ++ [statusSent (name p);
                                      Log (LogSent email (name p) k)].
Proof.
  revert attempt w.
  induction remaining as [|n IH]; intros attempt w; cbv zeta; [discriminate|].
  rewrite retryLoop_S. destruct (providerAt _ _) as [p|] eqn:Hp.
  - cbv zeta. destruct (send p _ _ _ _) as [e|].
    + set (w1 := onAttemptFailed _ _ _ _). intros Hok.
      destruct (IH (S attempt) w1 Hok) as (p' & k & pre & Hp' & Hk & Ht).
      assert (config (svc w1) = config (svc w)) as Hcfg.
      { subst w1. rewrite onAttemptFailed_config. cbn. by destruct (timerDue _). }
      rewrite <- (f_equal providers Hcfg : providers (svc w1) = providers (svc w)),
              <- (f_equal currentProviderIndex Hcfg
                  : currentProviderIndex (svc w1) = currentProviderIndex (svc w)) in Hp.
      rewrite Hp' in Hp. injection Hp as ->.
      eexists p, k, (_ :: _ :: _ :: _ :: pre). split; [done|]. split; [lia|].
      rewrite Ht. subst w1. rewrite onAttemptFailed_trace. cbn.
      rewrite <- !app_assoc. reflexivity.
    + intros _. exists p, attempt, [Invoke (match currentProviderIndex (svc w) with
                                            | Idx i => i | NaN => 0 end)
                                      email subject body].
      split; [done|]. split; [lia|]. cbn. by rewrite <- !app_assoc.
  - set (w1 := onAttemptFailed _ _ _ _). intros Hok.
    destruct (IH (S attempt) w1 Hok) as (p' & k & pre & Hp' & Hk & Ht).
    assert (config (svc w1) = config (svc w)) as Hcfg
      by (subst w1; by rewrite onAttemptFailed_config).
    rewrite (f_equal providers Hcfg : providers (svc w1) = providers (svc w)),
            (f_equal currentProviderIndex Hcfg
             : currentProviderIndex (svc w1) = currentProviderIndex (svc w)) in Hp'.
    congruence.
Qed.

(** When the active provider delivers within its [maxRetries] attempts,
    the call ends with the success status naming that provider. *)
Lemma sendEmail_success email subject body w :
  cacheKeyOf email subject body ∉ emailCache (svc w) →
  sentEmails (svc w) < rateLimit (svc w) →
  (retryLoop email subject body (maxRetries (svc w)) 1
     (countSend (recordKey (cacheKeyOf email subject body) w))).1 = true →
  ∃ p k pre,
    providerAt (providers (svc w)) (currentProviderIndex (svc w)) = Some p
    ∧ 1 ≤ k ≤ maxRetries (svc w)
    ∧ emitted w (sendEmail email subject body w)
      = pre ++ [statusSent (name p); Log (LogSent email (name p) k)].
Proof.
  intros Hn Hlim Hok. rewrite sendEmail_flat, decide_False by done.
  rewrite (proj2 (Nat.leb_gt _ _) Hlim). cbv zeta. rewrite Hok.
  destruct (retryLoop_success _ _ _ _ _ _ Hok) as (p & k & pre & Hp & Hk & Ht).
  exists p, k, pre. split; [exact Hp|]. split; [lia|]. by apply emitted_app.
Qed.

(** When the active provider fails all its attempts, the index moves one
    place on, circularly, and the call ends in the duplicate branch. *)
Lemma sendEmail_exhausted email subject body w :
  cacheKeyOf email subject body ∉ emailCache (svc w) →
  sentEmails (svc w) < rateLimit (svc w) →
  let looped := retryLoop email subject body (maxRetries (svc w)) 1
                  (countSend (recordKey (cacheKeyOf email subject body) w)) in
  looped.1 = false →
  let w' := sendEmail email subject body w in
  currentProviderIndex (svc w')
  = nextIndex (currentProviderIndex (svc w)) (length (providers (svc w)))
  ∧ emitted looped.2 w'
    = [statusSwitched; Log (LogSwitched email); statusDuplicate;
       Log (LogDuplicate email (cacheKeyOf email subject body))].
Proof.
  intros Hn Hlim. cbv zeta. intros Hout.
  rewrite sendEmail_flat, decide_False by done.
  rewrite (proj2 (Nat.leb_gt _ _) Hlim). cbv zeta. rewrite Hout.
  pose proof (retryLoop_config email subject body (maxRetries (svc w)) 1
                (countSend (recordKey (cacheKeyOf email subject body) w))) as Hcfg.
  set (w1 := (retryLoop email subject body (maxRetries (svc w)) 1
                (countSend (recordKey (cacheKeyOf email subject body) w))).2) in *.
  split.
  - change (nextIndex (currentProviderIndex (svc w1)) (length (providers (svc w1)))
            = nextIndex (currentProviderIndex (svc w)) (length (providers (svc w)))).
    by rewrite (f_equal currentProviderIndex Hcfg
                : currentProviderIndex (svc w1) = currentProviderIndex (svc w)),
               (f_equal providers Hcfg : providers (svc w1) = providers (svc w)).
  - apply emitted_app. cbn. by rewrite <- !app_assoc.
Qed.

(** *** The rate counter *)

(** C6.  On an instance built by the constructor, after any sequence of
    calls and timer ticks, [sentEmails] is at most [rateLimit].  A call
    leaves the counter as it was, or increments it by one from a value
    strictly below [rateLimit]; the counter becomes 0 only through the
    interval callback, which [startRateLimitWindow] registers with a
    period of 60000 ms, whether that callback runs between two calls or
    during a suspension of one. *)
Theorem rate_counter_bounded ps ops :
  let w := run ops (boot (newService ps)) in
  sentEmails (svc w) ≤ rateLimit (svc w)
  ∧ rateWindowMs (svc w) = Some 60000%N
  ∧ sentEmails (svc (step w Tick)) = 0
  ∧ ∀ email subject body,
      let w' := step w (Call email subject body) in
      sentEmails (svc w') = sentEmails (svc w)
      ∨ sentEmails (svc w) < rateLimit (svc w)
        ∧ sentEmails (svc w') = S (sentEmails (svc w))
      ∨ sentEmails (svc w') = 0
        ∧ ∃ c, clock w ≤ c < clock w' ∧ timerDue c = true.
Proof.
  cbv zeta. split; [|split; [|split]].
  - apply run_sentEmails_le. cbn. lia.
  - pose proof (run_limits ops (boot (newService ps))) as E.
    unfold limits in E. by injection E.
  - reflexivity.
  - intros email subject body. apply sendEmail_sentEmails.
Qed.

(** *** At most one retry cycle per message *)

Lemma step_invocations_bound email subject body w op :
  let count w := invocationsFor email subject body (trace w) in
  count w ≤ maxRetries (svc w) →
  (cacheKeyOf email subject body ∉ emailCache (svc w) → count w = 0) →
  count (step w op) ≤ maxRetries (svc (step w op))
  ∧ (cacheKeyOf email subject body ∉ emailCache (svc (step w op)) →
     count (step w op) = 0).
Proof.
  cbv zeta. intros Hle Hzero.
  assert (maxRetries (svc (step w op)) = maxRetries (svc w)) as ->.
  { pose proof (step_limits w op) as E. unfold limits in E. congruence. }
  destruct op as [e s b|]; [|done]. cbn [step].
  destruct (sendEmail_emits e s b w) as (evs & Ht & Hmax & Hown & Hdup & _).
  rewrite Ht, invocationsFor_app, sendEmail_emailCache.
  destruct (Hown email subject body) as [(-> & -> & ->)|H0].
  - destruct (decide (cacheKeyOf e s b ∈ emailCache (svc w))) as [Hin|Hn].
    + rewrite (Hdup Hin). cbn. split; [lia|].
      intros Hout. destruct Hout. by apply elem_of_union_r.
    + rewrite (Hzero Hn). split; [lia|].
      intros Hout. destruct Hout. key_recorded.
  - rewrite H0. split; [lia|].
    intros Hout. rewrite Hzero; [lia|].
    intros Hin. destruct Hout. by apply elem_of_union_r.
Qed.

Lemma run_invocations_bound email subject body ops w :
  let count w := invocationsFor email subject body (trace w) in
  count w ≤ maxRetries (svc w) →
  (cacheKeyOf email subject body ∉ emailCache (svc w) → count w = 0) →
  count (run ops w) ≤ maxRetries (svc (run ops w)).
Proof.
  cbv zeta. revert w. induction ops as [|op ops IH]; intros w Hle Hzero; [done|].
  rewrite run_cons.
  destruct (step_invocations_bound email subject body w op Hle Hzero).
  by apply IH.
Qed.

(** C9.  On one instance built by the constructor, through any sequence
    of calls (for this or any other message) and timer ticks, the
    providers' [send] is invoked at most [maxRetries] = 3 times for a
    given (recipient, subject, body).  The call made after
    [switchProvider] is the duplicate branch: it invokes no provider. *)
Theorem invocations_per_message_bounded ps ops email subject body :
  invocationsFor email subject body (trace (run ops (boot (newService ps)))) ≤ 3
  ∧ maxRetries (svc (run ops (boot (newService ps)))) = 3
  ∧ ∀ w,
      let looped := retryLoop email subject body (maxRetries (svc w)) 1
                      (countSend (recordKey (cacheKeyOf email subject body) w)) in
      let switched := fallBack email looped.2 in
      sendEmail email subject body switched
      = reportDuplicate email subject body switched
      ∧ emitted switched (sendEmail email subject body switched)
        = [statusDuplicate; Log (LogDuplicate email (cacheKeyOf email subject body))].
Proof.
  assert (maxRetries (svc (run ops (boot (newService ps)))) = 3) as Hmax.
  { pose proof (run_limits ops (boot (newService ps))) as E.
    unfold limits in E. by injection E. }
  split; [|split; [done|]].
  - rewrite <- Hmax. apply run_invocations_bound; cbn; [lia|done].
  - intros w. cbv zeta.
    assert (sendEmail email subject body
              (fallBack email
                 (retryLoop email subject body (maxRetries (svc w)) 1
                    (countSend (recordKey (cacheKeyOf email subject body) w))).2)
            = reportDuplicate email subject body
                (fallBack email
                   (retryLoop email subject body (maxRetries (svc w)) 1
                      (countSend (recordKey (cacheKeyOf email subject body) w))).2))
      as Hdup.
    { apply sendEmail_cached. cbn. rewrite retryLoop_emailCache. cbn.
      key_recorded. }
    split; [done|]. rewrite Hdup. apply emitted_app. cbn. by rewrite <- app_assoc.
Qed.

(** *** Back-off *)

Lemma sendEmail_events email subject body w :
  let evs := emitted w (sendEmail email subject body w) in
  ∃ f,
    f ≤ maxRetries (svc w)
    ∧ failures evs = seq 1 f
    ∧ sleeps evs = map (backoff (svc w)) (seq 1 f)
    ∧ (cacheKeyOf email subject body ∉ emailCache (svc w) →
       sentEmails (svc w) < rateLimit (svc w) →
       (retryLoop email subject body (maxRetries (svc w)) 1
          (countSend (recordKey (cacheKeyOf email subject body) w))).1 = false →
       f = maxRetries (svc w)).
Proof.
  cbv zeta. rewrite sendEmail_flat.
  destruct (decide _) as [Hin|Hn].
  { exists 0. rewrite (emitted_app _ _ [statusDuplicate;
                 Log (LogDuplicate email (cacheKeyOf email subject body))])
      by (cbn; by rewrite <- app_assoc).
    split; [lia|]. split; [done|]. split; [done|]. intros; contradiction. }
  destruct (_ <=? _) eqn:Hlim.
  { apply Nat.leb_le in Hlim. exists 0.
    rewrite (emitted_app _ _ [statusRateLimit; Log (LogRateLimit email)])
      by (cbn; by rewrite <- app_assoc).
    split; [lia|]. split; [done|]. split; [done|]. intros; lia. }
  cbv zeta.
  destruct (retryLoop_events email subject body (maxRetries (svc w)) 1
              (countSend (recordKey (cacheKeyOf email subject body) w)))
    as (evs & f & Ht & Hle & Hall & Hfail & Hsl).
  change (backoff (svc (countSend (recordKey (cacheKeyOf email subject body) w))))
    with (backoff (svc w)) in Hsl.
  change (trace (countSend (recordKey (cacheKeyOf email subject body) w)))
    with (trace w) in Ht.
  exists f. destruct (retryLoop _ _ _ _ _ _) as [ok w1]. cbn [fst snd] in *.
  destruct ok.
  - rewrite (emitted_app _ _ _ Ht). by repeat split.
  - rewrite (emitted_app _ _
               (evs ++ [statusSwitched; Log (LogSwitched email); statusDuplicate;
                        Log (LogDuplicate email (cacheKeyOf email subject body))]))
      by (cbn; rewrite Ht; by rewrite <- !app_assoc).
    rewrite failures_app, sleeps_app. cbn. rewrite !app_nil_r.
    split; [done|]. split; [done|]. split; [done|]. intros _ _ _. by apply Hall.
Qed.

(** C7.  Within a call, the failed attempts are numbered 1, 2, ... up to
    at most [maxRetries], and the sleep that follows failed attempt [k] is
    [retryDelay * 2^(k-1)] ms; when the loop runs out every attempt from 1
    to [maxRetries] has failed and slept.  The delay strictly increases
    with [k] (for a positive [retryDelay]), and on an instance built by
    the constructor, whatever calls and ticks it has been through, the
    delays of attempts 1, 2, 3 are 1000, 2000, 4000 ms. *)
Theorem backoff_schedule email subject body w :
  let evs := emitted w (sendEmail email subject body w) in
  (∃ f, f ≤ maxRetries (svc w)
        ∧ failures evs = seq 1 f
        ∧ sleeps evs
          = map (fun k => retryDelay (svc w) * 2 ^ (k - 1)) (failures evs))
  ∧ (cacheKeyOf email subject body ∉ emailCache (svc w) →
     sentEmails (svc w) < rateLimit (svc w) →
     (retryLoop email subject body (maxRetries (svc w)) 1
        (countSend (recordKey (cacheKeyOf email subject body) w))).1 = false →
     failures evs = seq 1 (maxRetries (svc w)))
  ∧ (0 < retryDelay (svc w) →
     ∀ k, 1 ≤ k → backoff (svc w) k < backoff (svc w) (S k))
  ∧ (∀ ps ops,
       let s := svc (run ops (boot (newService ps))) in
       map (backoff s) (seq 1 (maxRetries s)) = [1000; 2000; 4000]).
Proof.
  cbv zeta.
  destruct (sendEmail_events email subject body w) as (f & Hle & Hfail & Hsl & Hall).
  split; [|split; [|split]].
  - exists f. split; [done|]. split; [done|]. by rewrite Hsl, Hfail.
  - intros Hn Hlim Hout. by rewrite Hfail, (Hall Hn Hlim Hout).
  - intros Hpos k Hk. unfold backoff.
    replace (S k - 1) with (S (k - 1)) by lia.
    rewrite Nat.pow_succ_r'.
    assert (0 < 2 ^ (k - 1)) by (apply Nat.neq_0_lt_0, Nat.pow_nonzero; lia).
    nia.
  - intros ps ops. cbv zeta.
    pose proof (run_limits ops (boot (newService ps))) as E. unfold limits in E.
    injection E as _ Hmax Hdelay _ _. unfold backoff. rewrite Hmax, Hdelay.
    reflexivity.
Qed.

(** *** The rate window *)

Lemma sendEmail_counts email subject body w :
  quiet →
  cacheKeyOf email subject body ∉ emailCache (svc w) →
  sentEmails (svc w) < rateLimit (svc w) →
  sentEmails (svc (sendEmail email subject body w)) = S (sentEmails (svc w)).
Proof.
  intros Hq Hn Hlim. rewrite sendEmail_flat, decide_False by done.
  rewrite (proj2 (Nat.leb_gt _ _) Hlim). cbv zeta.
  pose proof (retryLoop_sentEmails email subject body (maxRetries (svc w)) 1
                (countSend (recordKey (cacheKeyOf email subject body) w))) as H.
  cbv zeta in H. destruct (retryLoop _ _ _ _ _ _) as [ok w1]. cbn [fst snd] in *.
  destruct H as [H|[_ (c & _ & Hc)]]; [|by rewrite Hq in Hc].
  by destruct ok.
Qed.

(** Messages with fresh, pairwise distinct keys, as many as the window
    still admits: each is dispatched and counted. *)
Lemma run_within_window (front : list Message) w :
  quiet →
  ready (svc w) → 0 < maxRetries (svc w) →
  NoDup (map keyOf front) →
  (∀ m, m ∈ front → keyOf m ∉ emailCache (svc w)) →
  sentEmails (svc w) + length front ≤ rateLimit (svc w) →
  let w1 := run (map callOf front) w in
  sentEmails (svc w1) = sentEmails (svc w) + length front
  ∧ ready (svc w1)
  ∧ emailCache (svc w1) = list_to_set (map keyOf front) ∪ emailCache (svc w)
  ∧ ∃ evs, trace w1 = trace w ++ evs
           ∧ (∀ m, m ∈ front → 0 < sentFor m evs)
           ∧ (∀ m, m ∉ front → sentFor m evs = 0).
Proof.
  intros Hq. revert w.
  induction front as [|m rest IH]; intros w Hr Hm Hnd Hfresh Hroom; cbv zeta.
  { change (run (map callOf []) w) with w. cbn [length map list_to_set].
    split; [lia|]. split; [done|]. split; [by rewrite (left_id_L ∅ (∪))|].
    exists []. rewrite app_nil_r. split; [done|].
    split; [by intros m Hin%elem_of_nil|done]. }
  cbn [map length] in *. apply NoDup_cons in Hnd as [Hhead Hnd].
  rewrite run_cons.
  destruct m as [[e s] b]. cbn [callOf step fst snd].
  set (w' := sendEmail e s b w).
  assert (keyOf (e, s, b) ∉ emailCache (svc w)) as Hn
    by (apply Hfresh; by left).
  destruct (sendEmail_emits e s b w) as (evs0 & Ht0 & _ & Hown & _ & _ & Hpos).
  fold w' in Ht0.
  assert (sentEmails (svc w') = S (sentEmails (svc w))) as Hcount
    by (apply sendEmail_counts; [done|done|lia]).
  assert (limits (svc w') = limits (svc w)) as Hlimits by apply sendEmail_limits.
  assert (emailCache (svc w') = {[keyOf (e, s, b)]} ∪ emailCache (svc w)) as Hcache
    by apply sendEmail_emailCache.
  destruct (IH w') as (Hc1 & Hr1 & Hcache1 & evs1 & Ht1 & Hpos1 & Hzero1).
  - by apply sendEmail_ready.
  - unfold limits in Hlimits. by replace (maxRetries (svc w')) with (maxRetries (svc w))
      by congruence.
  - done.
  - intros m Hin. rewrite Hcache. intros [Heq%elem_of_singleton|Hold]%elem_of_union.
    + apply Hhead. rewrite <- Heq. apply list_elem_of_fmap. by exists m.
    + revert Hold. apply Hfresh. by right.
  - unfold limits in Hlimits.
    replace (rateLimit (svc w')) with (rateLimit (svc w)) by congruence. lia.
  - split; [lia|]. split; [done|]. split.
    { rewrite Hcache1, Hcache. cbn [map list_to_set].
      by rewrite (assoc_L (∪)), (comm_L (∪) (list_to_set _) {[_]}). }
    exists (evs0 ++ evs1). split; [by rewrite Ht1, Ht0, app_assoc|].
    split.
    + intros m [->|Hin]%elem_of_cons; unfold sentFor; rewrite invocationsFor_app.
      * cbn [fst snd]. assert (0 < invocationsFor e s b evs0); [|lia].
        apply Hpos; [done|lia|done|done].
      * specialize (Hpos1 m Hin). unfold sentFor in Hpos1. lia.
    + intros m Hout. unfold sentFor. rewrite invocationsFor_app.
      assert (m ≠ (e, s, b) ∧ m ∉ rest) as [Hne Hout']
        by (split; intros ?; apply Hout; [subst m; by left|by right]).
      specialize (Hzero1 m Hout'). unfold sentFor in Hzero1. rewrite Hzero1.
      destruct (Hown m.1.1 m.1.2 m.2) as [(E1 & E2 & E3)|H0]; [|lia].
      destruct Hne. destruct m as [[e' s'] b']. cbn in *. congruence.
Qed.

(** C5, as the code has it.  Let the window start with the counter at 0
    and let no timer callback run.  Of [rateLimit] + 1 messages whose
    fingerprints are pairwise distinct and not yet cached, sent one after
    the other, each of the first [rateLimit] reaches a provider and the
    last one gets the rate-limit status and its log line only, with no
    provider invocation.  After the interval callback has reset the
    counter, a further message with a fresh fingerprint reaches a provider
    again (for a positive [rateLimit]). *)
Theorem rate_limit_window (front : list Message) (last fresh : Message) w :
  quiet →
  ready (svc w) → 0 < maxRetries (svc w) →
  sentEmails (svc w) = 0 →
  length front = rateLimit (svc w) →
  NoDup (map keyOf (front ++ [last; fresh])) →
  (∀ m, m ∈ front ++ [last; fresh] → keyOf m ∉ emailCache (svc w)) →
  let w1 := run (map callOf front) w in
  let w2 := step w1 (callOf last) in
  let w3 := step w2 Tick in
  let w4 := step w3 (callOf fresh) in
  (∀ m, m ∈ front → 0 < sentFor m (emitted w w1))
  ∧ emitted w1 w2 = [statusRateLimit; Log (LogRateLimit last.1.1)]
  ∧ sentFor last (emitted w w2) = 0
  ∧ sentEmails (svc w3) = 0
  ∧ (0 < rateLimit (svc w) → 0 < sentFor fresh (emitted w3 w4)).
Proof.
  intros Hq Hr Hm Hzero Hlen Hnd Hfresh. cbv zeta.
  rewrite map_app in Hnd. apply NoDup_app in Hnd as (Hnd1 & Hcross & Hnd2).
  apply NoDup_cons in Hnd2 as [Hlf _].
  destruct (run_within_window front w Hq Hr Hm Hnd1) as (Hc & Hr1 & Hcache & evs & Ht & Hpos & Hnone).
  { intros m Hin. apply Hfresh, elem_of_app. by left. }
  { lia. }
  set (w1 := run (map callOf front) w) in *.
  assert (limits (svc w1) = limits (svc w)) as Hlim1 by apply run_limits.
  assert (rateLimit (svc w1) = rateLimit (svc w)
          ∧ maxRetries (svc w1) = maxRetries (svc w)) as [Hrl Hmr]
    by (unfold limits in Hlim1; split; congruence).
  assert (∀ m, m ∈ [last; fresh] → keyOf m ∉ emailCache (svc w1)) as Hfresh1.
  { intros m Hin. rewrite Hcache.
    intros [Hold%elem_of_list_to_set|Hold]%elem_of_union.
    - by apply (Hcross _ Hold), list_elem_of_fmap_2.
    - revert Hold. apply Hfresh, elem_of_app. by right. }
  assert (last ∉ front) as Hlast.
  { intros Hin. apply (Hcross (keyOf last)); [by apply list_elem_of_fmap_2|by left]. }
  destruct last as [[e s] b]. cbn [callOf step fst snd].
  destruct (sendEmail_emits e s b w1) as (evs2 & Ht2 & _ & _ & _ & Hrate & _).
  specialize (Hrate (Hfresh1 _ ltac:(by left)) ltac:(lia)). subst evs2.
  set (w2 := sendEmail e s b w1) in *.
  split; [|split; [|split; [|split]]].
  - intros m Hin. rewrite (emitted_app _ _ _ Ht). by apply Hpos.
  - by apply emitted_app.
  - rewrite (emitted_app w w2 (evs ++ [statusRateLimit; Log (LogRateLimit e)]))
      by (by rewrite Ht2, Ht, app_assoc).
    unfold sentFor. rewrite invocationsFor_app.
    specialize (Hnone _ Hlast). unfold sentFor in Hnone. rewrite Hnone. reflexivity.
  - reflexivity.
  - intros Hpos'. destruct fresh as [[e' s'] b']. cbn [callOf step fst snd].
    destruct (sendEmail_emits e' s' b' (onService resetWindow w2))
      as (evs4 & Ht4 & _ & _ & _ & _ & Hgo).
    rewrite (emitted_app _ _ _ Ht4). unfold sentFor. cbn [fst snd].
    assert (limits (svc w2) = limits (svc w1)) as Hlim2 by apply sendEmail_limits.
    unfold limits in Hlim2.
    apply Hgo.
    + change (emailCache (svc (onService resetWindow w2))) with (emailCache (svc w2)).
      unfold w2. rewrite sendEmail_emailCache.
      intros [Heq%elem_of_singleton|Hold]%elem_of_union.
      * apply Hlf. change (cacheKeyOf e s b ∈ [cacheKeyOf e' s' b']).
        rewrite <- Heq. by left.
      * exact (Hfresh1 (e', s', b') ltac:(right; by left) Hold).
    + cbn. replace (rateLimit (svc w2)) with (rateLimit (svc w)) by congruence. done.
    + change (ready (svc w2)). by apply sendEmail_ready.
    + cbn. replace (maxRetries (svc w2)) with (maxRetries (svc w)) by congruence. done.
Qed.
End DispatchFacts.

(** * The two files, on concrete inputs *)

(** *** Fallback *)

(** C1, on part_000 with roster [Provider1; Provider2], the draws
    [highThenLow] and message ("a@x.com", "s", "b").  Provider1 fails the
    three attempts and the active index advances from 0 to
    1 = (0 + 1) mod 2.  No attempt cycle follows on the new provider: the
    recursive call finds the key in the cache, reports a duplicate and
    returns, and provider 1 is never invoked. *)
Theorem fallback_starts_no_new_cycle :
  let w := sendEmail generateCacheKey noTimer "a@x.com" "s" "b"
             failingThenDelivering in
  let err := Error "Provider1 failure" in
  currentProviderIndex (svc w) = Idx 1
  ∧ trace w =
    [ Invoke 0 "a@x.com" "s" "b";
      statusAttemptFailed 1 err; Log (LogAttemptFailed "a@x.com" 1 err); Sleep 1000;
      Invoke 0 "a@x.com" "s" "b";
      statusAttemptFailed 2 err; Log (LogAttemptFailed "a@x.com" 2 err); Sleep 2000;
      Invoke 0 "a@x.com" "s" "b";
      statusAttemptFailed 3 err; Log (LogAttemptFailed "a@x.com" 3 err); Sleep 4000;
      statusSwitched; Log (LogSwitched "a@x.com");
      statusDuplicate; Log (LogDuplicate "a@x.com" "a@x.com:s:b") ]
  ∧ List.filter (fun e => match e with Invoke 1 _ _ _ => true | _ => false end)
      (trace w) = [].
Proof. cbv zeta. repeat split; vm_compute; reflexivity. Qed.

(** C2, on emailService.js with the draws [highThenLow] and message
    ("a@x.com", "s", "b").  Provider1 fails its three attempts; Provider2
    would deliver if it were tried at the clock the call ends with.  The
    call ends all the same with the duplicate status as its last status:
    no success status is emitted and Provider2 is never invoked. *)
Theorem no_success_after_fallback :
  let w := sendEmail cacheKey noTimer "a@x.com" "s" "b" mockService in
  (∃ p, providerAt (providers (svc w)) (currentProviderIndex (svc w)) = Some p
        ∧ name p = "Provider2"
        ∧ send p (clock w) "a@x.com" "s" "b" = None)
  ∧ List.last (statuses (trace w)) statusSwitched = statusDuplicate
  ∧ List.filter (fun e => match e with Status _ false _ => true | _ => false end)
      (trace w) = []
  ∧ invocationsFor "a@x.com" "s" "b" (trace w) = 3
  ∧ List.filter (fun e => match e with Invoke 1 _ _ _ => true | _ => false end)
      (trace w) = [].
Proof.
  cbv zeta. split.
  - eexists. split; [vm_compute; reflexivity|]. split; vm_compute; reflexivity.
  - repeat split; vm_compute; reflexivity.
Qed.

(** *** Rate limiting and colliding keys *)

(** C5 as stated fails: with [rateLimit] = 2, three messages that differ
    in their fields are sent within one window to a fresh instance.  The
    second has the key of the first and is suppressed as a duplicate
    without being counted, so the third is not rate-limited: it reaches a
    provider. *)
Lemma rate_limit_distinct_fields_counterexample :
  let w0 := deliveringService in
  let w2 := run generateCacheKey noTimer
              [Call "a:b" "c" "d"; Call "a" "b:c" "d"] w0 in
  let w3 := step generateCacheKey noTimer w2 (Call "x" "y" "z") in
  NoDup collidingBatch
  ∧ rateLimit (svc w0) = 2 ∧ sentEmails (svc w0) = 0 ∧ emailCache (svc w0) = ∅
  ∧ invocationsFor "a" "b:c" "d" (trace w3) = 0
  ∧ emitted w2 w3 ≠ [statusRateLimit; Log (LogRateLimit "x")]
  ∧ emitted w2 w3 = [Invoke 0 "x" "y" "z"; statusSent "Provider2";
                     Log (LogSent "x" "Provider2" 1)].
Proof.
  cbv zeta.
  assert (emitted
            (run generateCacheKey noTimer
               [Call "a:b" "c" "d"; Call "a" "b:c" "d"] deliveringService)
            (step generateCacheKey noTimer
               (run generateCacheKey noTimer
                  [Call "a:b" "c" "d"; Call "a" "b:c" "d"] deliveringService)
               (Call "x" "y" "z"))
          = [Invoke 0 "x" "y" "z"; statusSent "Provider2";
             Log (LogSent "x" "Provider2" 1)]) as E
    by (vm_compute; reflexivity).
  split; [|split; [|split; [|split; [|split; [|split]]]]].
  - unfold collidingBatch. repeat (apply NoDup_cons; split).
    + intros H. repeat (apply elem_of_cons in H as [H|H]; [discriminate H|]).
      by apply elem_of_nil in H.
    + intros H. repeat (apply elem_of_cons in H as [H|H]; [discriminate H|]).
      by apply elem_of_nil in H.
    + apply not_elem_of_nil.
    + apply NoDup_nil_2.
  - reflexivity.
  - reflexivity.
  - reflexivity.
  - vm_compute. reflexivity.
  - rewrite E. discriminate.
  - exact E.
Qed.

(** *** Construction *)

(** C8 as stated fails: the constructor does not reject the empty list. *)
Lemma empty_roster_not_rejected : ¬ ∃ e, construct [] = inl e.
Proof. intros [e H]. discriminate H. Qed.

(** C8, as the code has it.  The constructor validates nothing: for every
    list, the empty one included, it returns an instance holding that list
    as its roster, with active index 0, an empty cache and a zero counter. *)
Theorem construct_accepts_any_roster ps :
  ∃ s, construct ps = inr s
       ∧ providers s = ps
       ∧ currentProviderIndex s = Idx 0
       ∧ emailCache s = ∅
       ∧ sentEmails s = 0
       ∧ (maxRetries s, retryDelay s, rateLimit s) = (3, 1000, 2).
Proof. exists (newService ps). by repeat split. Qed.

(** With the empty roster a send invokes no provider: each attempt fails
    on [undefined.send], the index becomes [NaN], and the recursive call
    reports a duplicate. *)
Lemma empty_roster_send :
  let w := sendEmail generateCacheKey noTimer "a@x.com" "s" "b"
             (boot (newService [])) in
  currentProviderIndex (svc w) = NaN
  ∧ List.filter isInvoke (trace w) = []
  ∧ failures (trace w) = [1; 2; 3]
  ∧ List.last (statuses (trace w)) statusSwitched = statusDuplicate.
Proof. cbv zeta. repeat split; vm_compute; reflexivity. Qed.

(** *** Cache keys *)

(** C10.  The key is a function of the three fields: equal fields give
    equal keys, in both files.  It is the plain concatenation with the
    separator, so two messages that differ only in where the separator
    falls have the same key.  After a call for the first, a call for the
    second reports a duplicate, and no provider is ever invoked for the
    second, whatever calls and ticks follow. *)
Theorem cache_key_deterministic_but_colliding :
  (∀ m m' : Message,
     m = m' →
     generateCacheKey m.1.1 m.1.2 m.2 = generateCacheKey m'.1.1 m'.1.2 m'.2
     ∧ cacheKey m.1.1 m.1.2 m.2 = cacheKey m'.1.1 m'.1.2 m'.2)
  ∧ (∀ e s b, generateCacheKey e s b = e +:+ ":" +:+ s +:+ ":" +:+ b
              ∧ cacheKey e s b = e +:+ "-" +:+ s +:+ "-" +:+ b)
  ∧ (("a:b", "c", "d") : Message) ≠ ("a", "b:c", "d")
  ∧ generateCacheKey "a:b" "c" "d" = generateCacheKey "a" "b:c" "d"
  ∧ (("a-b", "c", "d") : Message) ≠ ("a", "b-c", "d")
  ∧ cacheKey "a-b" "c" "d" = cacheKey "a" "b-c" "d"
  ∧ ∀ timerDue w ops,
      invocationsFor "a" "b:c" "d" (trace w) = 0 →
      let w1 := sendEmail generateCacheKey timerDue "a:b" "c" "d" w in
      let w2 := sendEmail generateCacheKey timerDue "a" "b:c" "d" w1 in
      emitted w1 w2 = [statusDuplicate; Log (LogDuplicate "a" "a:b:c:d")]
      ∧ invocationsFor "a" "b:c" "d"
          (trace (run generateCacheKey timerDue ops w2)) = 0.
Proof.
  split; [by intros m m' ->|]. split; [done|]. split; [discriminate|].
  split; [reflexivity|]. split; [discriminate|]. split; [reflexivity|].
  intros timerDue w ops Hzero. cbv zeta.
  set (w1 := sendEmail generateCacheKey timerDue "a:b" "c" "d" w).
  assert (generateCacheKey "a" "b:c" "d" ∈ emailCache (svc w1)) as Hin.
  { unfold w1. rewrite sendEmail_emailCache.
    key_recorded. }
  destruct (sendEmail_cached_emits generateCacheKey timerDue "a" "b:c" "d" w1 Hin)
    as (He & Ht & _).
  split; [exact He|].
  rewrite run_cached_invocations.
  - rewrite Ht, He, invocationsFor_app. cbn.
    destruct (sendEmail_emits generateCacheKey timerDue "a:b" "c" "d" w)
      as (evs & Ht1 & _ & Hown & _).
    fold w1 in Ht1. rewrite Ht1, invocationsFor_app, Hzero.
    destruct (Hown "a" "b:c" "d") as [(H & _)|H0]; [discriminate H|]. by rewrite H0.
  - rewrite sendEmail_emailCache. key_recorded.
Qed.

(** * Instances of the conditional theorems *)

(** The duplicate branch on an instance that has seen the message. *)
Lemma duplicate_call_is_noop_witness :
  generateCacheKey "a@x.com" "s" "b" ∈ emailCache (svc seenService)
  ∧ emitted seenService
      (sendEmail generateCacheKey noTimer "a@x.com" "s" "b" seenService)
    = [statusDuplicate; Log (LogDuplicate "a@x.com" "a@x.com:s:b")]
  ∧ svc (sendEmail generateCacheKey noTimer "a@x.com" "s" "b" seenService)
    = svc seenService.
Proof.
  assert (generateCacheKey "a@x.com" "s" "b" ∈ emailCache (svc seenService)) as Hin
    by (vm_compute; reflexivity).
  split; [exact Hin|].
  destruct (proj1 (duplicate_call_is_noop generateCacheKey noTimer
                     "a@x.com" "s" "b" seenService) Hin) as (He & _ & Hs & _).
  split; [exact He|exact Hs].
Defined.

(** A message that fails every attempt is cached all the same, and a later
    call for it adds no invocation. *)
Lemma fingerprint_recorded_before_dispatch_witness :
  (generateCacheKey "a@x.com" "s" "b" ∉ emailCache (svc failingService))
  ∧ generateCacheKey "a@x.com" "s" "b"
    ∈ emailCache (svc (sendEmail generateCacheKey noTimer "a@x.com" "s" "b"
                         failingService))
  ∧ invocationsFor "a@x.com" "s" "b"
      (trace (sendEmail generateCacheKey noTimer "a@x.com" "s" "b"
                (run generateCacheKey noTimer [Tick; Call "x" "y" "z"]
                   (sendEmail generateCacheKey noTimer "a@x.com" "s" "b"
                      failingService))))
    = invocationsFor "a@x.com" "s" "b"
        (trace (sendEmail generateCacheKey noTimer "a@x.com" "s" "b"
                  failingService)).
Proof.
  assert (generateCacheKey "a@x.com" "s" "b" ∉ emailCache (svc failingService)) as Hn
    by (vm_compute; discriminate).
  split; [exact Hn|].
  destruct (fingerprint_recorded_before_dispatch generateCacheKey noTimer
              "a@x.com" "s" "b" failingService Hn) as (_ & _ & _ & Hin & Hlater).
  split; [exact Hin|].
  exact (proj2 (proj2 (Hlater [Tick; Call "x" "y" "z"]))).
Defined.

(** [rateLimit] = 2: two messages are dispatched, the third is
    rate-limited, and after a tick a fourth is dispatched. *)
Lemma rate_limit_window_witness :
  let w := deliveringService in
  let w1 := run generateCacheKey noTimer [Call "a" "s" "b"; Call "c" "s" "b"] w in
  let w2 := step generateCacheKey noTimer w1 (Call "d" "s" "b") in
  let w3 := step generateCacheKey noTimer w2 Tick in
  let w4 := step generateCacheKey noTimer w3 (Call "e" "s" "b") in
  length [("a", "s", "b"); ("c", "s", "b")] = rateLimit (svc w)
  ∧ emitted w1 w2 = [statusRateLimit; Log (LogRateLimit "d")]
  ∧ invocationsFor "d" "s" "b" (emitted w w2) = 0
  ∧ 0 < invocationsFor "e" "s" "b" (emitted w3 w4).
Proof.
  cbv zeta.
  assert (quiet noTimer) as Hq by (intros c; reflexivity).
  assert (ready (svc deliveringService)) as Hr by (eexists; reflexivity).
  assert (0 < maxRetries (svc deliveringService)) as Hm by (cbn; lia).
  assert (sentEmails (svc deliveringService) = 0) as Hz by reflexivity.
  assert (length [("a", "s", "b"); ("c", "s", "b")]
          = rateLimit (svc deliveringService)) as Hlen by reflexivity.
  assert (NoDup (map (keyOf generateCacheKey)
                   ([("a", "s", "b"); ("c", "s", "b")]
                    ++ [("d", "s", "b"); ("e", "s", "b")]))) as Hnd
    by (apply (bool_decide_unpack _); vm_compute; exact I).
  assert (∀ m : Message,
            m ∈ [("a", "s", "b"); ("c", "s", "b")] ++ [("d", "s", "b"); ("e", "s", "b")] →
            keyOf generateCacheKey m ∉ emailCache (svc deliveringService)) as Hfresh
    by (intros m _; apply not_elem_of_empty).
  destruct (rate_limit_window generateCacheKey noTimer
              [("a", "s", "b"); ("c", "s", "b")] ("d", "s", "b") ("e", "s", "b")
              deliveringService Hq Hr Hm Hz Hlen Hnd Hfresh)
    as (_ & Hrate & Hnone & _ & Hnext).
  split; [exact Hlen|]. split; [exact Hrate|]. split; [exact Hnone|].
  apply Hnext. cbn. lia.
Defined.

(** Three failed attempts on a provider that always throws. *)
Lemma backoff_schedule_witness :
  let w := failingService in
  let evs := emitted w (sendEmail generateCacheKey noTimer "a@x.com" "s" "b" w) in
  0 < retryDelay (svc w)
  ∧ failures evs = [1; 2; 3]
  ∧ sleeps evs = [1000; 2000; 4000]
  ∧ backoff (svc w) 1 < backoff (svc w) 2
  ∧ backoff (svc w) 2 < backoff (svc w) 3.
Proof.
  cbv zeta.
  assert (0 < retryDelay (svc failingService)) as Hpos by (cbn; lia).
  destruct (backoff_schedule generateCacheKey noTimer "a@x.com" "s" "b" failingService)
    as ((f & _ & _ & Hsl) & Hall & Hinc & _).
  assert (failures (emitted failingService
                      (sendEmail generateCacheKey noTimer "a@x.com" "s" "b"
                         failingService)) = [1; 2; 3]) as Hfail.
  { apply Hall.
    - vm_compute. discriminate.
    - cbn. lia.
    - vm_compute. reflexivity. }
  split; [exact Hpos|]. split; [exact Hfail|]. split.
  - rewrite Hsl, Hfail. reflexivity.
  - split; apply (Hinc Hpos); lia.
Defined.

(** The colliding pair on a fresh instance. *)
Lemma cache_key_deterministic_but_colliding_witness :
  generateCacheKey "a" "s" "b" = generateCacheKey "a" "s" "b"
  ∧ invocationsFor "a" "b:c" "d" (trace deliveringService) = 0
  ∧ invocationsFor "a" "b:c" "d"
      (trace (run generateCacheKey noTimer [Tick; Call "a" "b:c" "d"]
                (sendEmail generateCacheKey noTimer "a" "b:c" "d"
                   (sendEmail generateCacheKey noTimer "a:b" "c" "d"
                      deliveringService)))) = 0.
Proof.
  destruct cache_key_deterministic_but_colliding as (Hdet & _ & _ & _ & _ & _ & Hsup).
  assert (invocationsFor "a" "b:c" "d" (trace deliveringService) = 0) as Hz
    by reflexivity.
  split; [exact (proj1 (Hdet ("a", "s", "b") ("a", "s", "b") eq_refl))|].
  split; [exact Hz|].
  exact (proj2 (Hsup noTimer deliveringService [Tick; Call "a" "b:c" "d"] Hz)).
Defined.
